(** * The filter registry of [filters/filters.go]

    A shallow embedding of the package [filters]: the identifier type
    [Filter], the name table [FilterPluginNames], the two conversions
    [Filter.String] and [FilterFromName], and the registry [FiltersList]
    with its methods [Register] and [Get] and the package's [init].

    Conventions of the embedding:
    - a Go [int] is a [Z]; the package does no arithmetic on identifiers,
      it only compares them and uses them as an index or a map key, so
      every statement below is made for all of [Z], which covers the
      64-bit range of the machine type;
    - a Go [string] is a Rocq [string] (a sequence of bytes), and [==] on
      strings is [String.eqb];
    - a run-time panic (an index out of range, a write to a nil map) is an
      explicit outcome, so that "does not crash" is a statement to prove;
    - a Go map is a reference: the struct [FiltersList] holds the address
      of a map object that lives in a heap, and a copy of the struct
      (a value receiver) shares that object. *)

From stdpp Require Import gmap strings list fin_maps.
From Stdlib Require Import ZArith Lia Ascii.

Local Open Scope Z_scope.

(** ** Outcomes of a Go call *)

Inductive outcome (A : Type) : Type :=
| Ret (a : A)
| Panic (msg : string).
Arguments Ret {A} a.
Arguments Panic {A} msg.

(** ** Errors and the fragment of [fmt] the package uses *)

(** A value of the interface type [error]: [nil], or an error built by
    [fmt.Errorf], which carries its message. *)
Inductive error : Type :=
| nil_error
| errorString (msg : string).

(** What [Sprintf] prints for operands that no verb consumed:
    [string=a, string=b]. *)
Fixpoint extra_operands (args : list string) : string :=
  match args with
  | [] => EmptyString
  | [a] => "string=" +:+ a
  | a :: args' => "string=" +:+ a +:+ ", " +:+ extra_operands args'
  end.

(** [Sprintf format args], for the formats made of literal bytes and the
    verb [%s] (every [%] is followed by [s]) and for string operands: each
    [%s] prints the next operand as it is; a [%s] that finds no operand left
    prints [%!s(MISSING)]; operands left at the end are listed after
    [%!(EXTRA]. The only format of the package, ["No filter named %s"], is
    of that kind. *)
Fixpoint Sprintf (format : string) (args : list string) : string :=
  match format with
  | EmptyString =>
      match args with
      | [] => EmptyString
      | _ :: _ => "%!(EXTRA " +:+ extra_operands args +:+ ")"
      end
  | String "%"%char (String "s"%char rest) =>
      match args with
      | a :: args' => a +:+ Sprintf rest args'
      | [] => "%!s(MISSING)" +:+ Sprintf rest []
      end
  | String c rest => String c (Sprintf rest args)
  end.

Definition Errorf (format : string) (args : list string) : error :=
  errorString (Sprintf format args).

(** [strings.Contains s substr]. *)
Fixpoint Contains (s substr : string) : bool :=
  String.prefix substr s ||
  match s with
  | EmptyString => false
  | String _ s' => Contains s' substr
  end.

(** ** Identifiers and names *)

(** [type Filter int]. *)
Abbreviation Filter := Z (only parsing).

Definition NopFilter : Filter := 0.
Definition SampleFilter : Filter := 1.

(** The declared value of the package variable [FilterPluginNames]. *)
Definition FilterPluginNames : list string := ["nop"; "sample"].

(** [len(s)] as a Go [int]. *)
Definition len {A} (s : list A) : Z := Z.of_nat (List.length s).

(** [s[i]] on a slice: panics when the index is out of range. *)
Definition index {A} (s : list A) (i : Z) : outcome A :=
  if (i <? 0) || (i >=? len s) then Panic "index out of range"
  else match s !! Z.to_nat i with
       | Some x => Ret x
       | None => Panic "index out of range"
       end.

Section Names.
(** The functions read the package variable [FilterPluginNames]; the
    embedding passes its current value. *)
Variable names : list string.

Definition Filter_String (filter : Filter) : outcome string :=
  if (filter <? 0) || (filter >=? len names) then Ret "impossible"
  else index names filter.

(** The [range] loop of [FilterFromName], entered at index [i] with
    [rest] still to visit. *)
Fixpoint FilterFromName_range (name : string) (i : Z) (rest : list string)
  : Filter * error :=
  match rest with
  | [] => (-1, Errorf "No filter named %s" [name])
  | pluginname :: rest' =>
      if String.eqb name pluginname then (i, nil_error)
      else FilterFromName_range name (i + 1) rest'
  end.

Definition FilterFromName (name : string) : Filter * error :=
  FilterFromName_range name 0 names.
End Names.

(** ** The registry *)

(** Addresses of map objects. *)
Abbreviation loc := positive (only parsing).

(** [type FiltersList struct { filters map[Filter]FilterPlugin }]: the
    field holds a reference to a map object, or is the nil map. *)
Record FiltersList : Type := mkFiltersList { filters : option loc }.

Section Registry.
(** The dynamic values that implement the interface [FilterPlugin]. The
    registry stores and returns them and calls none of their methods. *)
Context {Impl : Type}.

(** A value of the interface type [FilterPlugin]: [nil] or an
    implementation. *)
Inductive FilterPlugin : Type :=
| nil_plugin
| plugin (p : Impl).

(** The state of the package: the map objects made so far and the package
    variable [Filters]. *)
Record state : Type := mkState {
  heap : gmap loc (gmap Filter FilterPlugin);
  Filters : FiltersList
}.

(** Go code that reads and writes the state and may panic. *)
Definition M (A : Type) : Type := state -> outcome (A * state).

#[export] Instance M_ret : MRet M := fun A a s => Ret (a, s).

#[export] Instance M_bind : MBind M := fun A B k c s =>
  match c s with
  | Ret (a, s') => k a s'
  | Panic msg => Panic msg
  end.

(** [make(map[Filter]FilterPlugin)]: a new, empty map object. *)
Definition make_map : M loc :=
  fun s => let l := fresh (dom (heap s)) in
           Ret (l, mkState (<[l := ∅]> (heap s)) (Filters s)).

(** [m[k] = v]: panics on the nil map. *)
Definition map_assign (m : option loc) (k : Filter) (v : FilterPlugin) : M unit :=
  fun s => match m with
           | None => Panic "assignment to entry in nil map"
           | Some l =>
               match heap s !! l with
               | Some o => Ret (tt, mkState (<[l := <[k := v]> o]> (heap s)) (Filters s))
               | None => Panic "invalid memory address"
               end
           end.

(** [m[k]]: the zero value when the key is absent, also on the nil map. *)
Definition map_index (m : option loc) (k : Filter) : M FilterPlugin :=
  fun s => match m with
           | None => Ret (nil_plugin, s)
           | Some l =>
               match heap s !! l with
               | Some o => Ret (default nil_plugin (o !! k), s)
               | None => Panic "invalid memory address"
               end
           end.

Definition FiltersList_Register (filters0 : FiltersList) (filter : Filter)
    (plugin0 : FilterPlugin) : M unit :=
  map_assign (filters filters0) filter plugin0.

Definition FiltersList_Get (filters0 : FiltersList) (filter : Filter)
    : M FilterPlugin :=
  map_index (filters filters0) filter.

(** An assignment to the package variable [Filters]. *)
Definition set_Filters (v : FiltersList) : M unit :=
  fun s => Ret (tt, mkState (heap s) v).

(** [func init()]. *)
Definition init : M unit :=
  set_Filters (mkFiltersList None);;
  m ← make_map;
  set_Filters (mkFiltersList (Some m)).

(** The state before [init]: no map object, [Filters] at its zero value. *)
Definition boot : state := mkState ∅ (mkFiltersList None).

(** The calls [Filters.Register(filter, plugin)] and [Filters.Get(filter)]
    of a client: the receiver is a copy of the package variable. *)
Definition Filters_Register (filter : Filter) (plugin0 : FilterPlugin) : M unit :=
  fun s => FiltersList_Register (Filters s) filter plugin0 s.

Definition Filters_Get (filter : Filter) : M FilterPlugin :=
  fun s => FiltersList_Get (Filters s) filter s.

(** A sequence of registrations, in order. *)
Fixpoint registrations (calls : list (Filter * FilterPlugin)) : M unit :=
  match calls with
  | [] => mret tt
  | (filter, plugin0) :: calls' =>
      Filters_Register filter plugin0;; registrations calls'
  end.

(** The process: [init], then the registrations made so far. *)
Definition process (calls : list (Filter * FilterPlugin)) : outcome (unit * state) :=
  (init;; registrations calls) boot.

(** The map object that the package variable [Filters] refers to. *)
Definition table (s : state) : option (gmap Filter FilterPlugin) :=
  match filters (Filters s) with
  | Some l => heap s !! l
  | None => None
  end.

Definition reachable (s : state) : Prop :=
  exists calls, process calls = Ret (tt, s).

(** What a history of registrations says about an identifier: the
    implementation of the last call made under it, if there is one. *)
Fixpoint last_registration (calls : list (Filter * FilterPlugin)) (id : Filter)
  : option FilterPlugin :=
  match calls with
  | [] => None
  | (filter, plugin0) :: calls' =>
      match last_registration calls' id with
      | Some q => Some q
      | None => if decide (filter = id) then Some plugin0 else None
      end
  end.

End Registry.

Arguments FilterPlugin : clear implicits.
Arguments state : clear implicits.

(** A concrete instance used in examples: implementations named by a
    string, and the state right after [init]. *)
Definition started : state string :=
  mkState {[1%positive := ∅]} (mkFiltersList (Some 1%positive)).

(** The state after [init] and [Filters.Register(NopFilter, nop)]: the
    registry holds one entry. *)
Definition nop_registered : state string :=
  mkState {[1%positive := {[NopFilter := plugin "nop"]}]}
          (mkFiltersList (Some 1%positive)).

(** * Properties *)

(** ** Strings and formatting *)

Lemma append_String (c : ascii) (a b : string) :
  String c a +:+ b = String c (a +:+ b).
Proof. reflexivity. Qed.

Lemma append_empty_r (s : string) : s +:+ EmptyString = s.
Proof.
  induction s as [|c s IH]; [reflexivity|].
  now rewrite append_String, IH.
Qed.

Lemma prefix_spec (a b : string) :
  String.prefix a b = true <-> exists post, b = a +:+ post.
Proof.
  revert b. induction a as [|x a IH]; intros [|y b]; simpl.
  - split; [intros _; now exists EmptyString | reflexivity].
  - split; [intros _; now exists (String y b) | reflexivity].
  - split; [discriminate | intros [post H]; discriminate].
  - destruct (Ascii.ascii_dec x y) as [->|Hne].
    + rewrite IH. split; intros [post H]; exists post.
      * now rewrite append_String, H.
      * rewrite append_String in H. congruence.
    + split; [discriminate|].
      intros [post H]. rewrite append_String in H. congruence.
Qed.

Lemma Contains_String (c : ascii) (s substr : string) :
  Contains (String c s) substr =
  String.prefix substr (String c s) || Contains s substr.
Proof. reflexivity. Qed.

(** [Contains] decides the occurrence of [substr] somewhere in [s]. *)
Lemma Contains_spec (s substr : string) :
  Contains s substr = true <-> exists pre post, s = pre +:+ substr +:+ post.
Proof.
  induction s as [|c s IH].
  - unfold Contains. rewrite orb_false_r, prefix_spec. split.
    + intros [post H]. now exists EmptyString, post.
    + intros [[|x pre] [post H]]; [now exists post | discriminate].
  - rewrite Contains_String, orb_true_iff, prefix_spec, IH. split.
    + intros [[post H]|(pre & post & H)].
      * now exists EmptyString, post.
      * exists (String c pre), post. now rewrite append_String, H.
    + intros [[|x pre] [post H]].
      * left. now exists post.
      * right. exists pre, post. rewrite append_String in H. congruence.
Qed.

Lemma Sprintf_No_filter_named (name : string) :
  Sprintf "No filter named %s" [name] = "No filter named " +:+ name.
Proof. cbn. now rewrite append_empty_r. Qed.

Lemma Errorf_carries_name (name : string) :
  exists msg, Errorf "No filter named %s" [name] = errorString msg /\
              Contains msg name = true.
Proof.
  exists ("No filter named " +:+ name). split.
  - unfold Errorf. now rewrite Sprintf_No_filter_named.
  - apply Contains_spec. exists "No filter named ", EmptyString.
    now rewrite append_empty_r.
Qed.

(** ** The scan of [FilterFromName] *)

Section NamesFacts.
Variable names : list string.

Lemma range_not_found (name : string) (rest : list string) (i : Z) :
  name ∉ rest ->
  FilterFromName_range name i rest = (-1, Errorf "No filter named %s" [name]).
Proof.
  revert i. induction rest as [|p rest IH]; intros i Hnot; simpl.
  - reflexivity.
  - apply not_elem_of_cons in Hnot as [Hne Hnot].
    destruct (String.eqb_spec name p) as [->|_]; [contradiction|].
    now apply IH.
Qed.

(** The loop stops at the first position that holds [name]. *)
Lemma range_first_match (name : string) (rest : list string) (i : Z) :
  name ∈ rest ->
  exists k : nat,
    rest !! k = Some name /\
    (forall j : nat, (j < k)%nat -> rest !! j <> Some name) /\
    FilterFromName_range name i rest = (i + Z.of_nat k, nil_error).
Proof.
  revert i. induction rest as [|p rest IH]; intros i Hin.
  - now apply elem_of_nil in Hin.
  - simpl. destruct (String.eqb_spec name p) as [->|Hne].
    + exists 0%nat. repeat split.
      * intros j Hj. lia.
      * f_equal. lia.
    + apply elem_of_cons in Hin as [->|Hin]; [contradiction|].
      destruct (IH (i + 1) Hin) as (k & Hk & Hfirst & Hres).
      exists (S k). repeat split.
      * exact Hk.
      * intros [|j] Hj; simpl; [congruence | apply Hfirst; lia].
      * rewrite Hres. f_equal. lia.
Qed.

(** A result without error names a position that holds [name] itself. *)
Lemma range_match_exact (name : string) (rest : list string) (i r : Z) :
  FilterFromName_range name i rest = (r, nil_error) ->
  i <= r /\ rest !! Z.to_nat (r - i) = Some name.
Proof.
  revert i. induction rest as [|p rest IH]; intros i; simpl.
  - unfold Errorf. discriminate.
  - destruct (String.eqb_spec name p) as [->|Hne].
    + intros [= <-]. split; [lia|]. now rewrite Z.sub_diag.
    + intros H. apply IH in H as [Hle Hk]. split; [lia|].
      replace (Z.to_nat (r - i)) with (S (Z.to_nat (r - (i + 1)))) by lia.
      exact Hk.
Qed.

Lemma Filter_String_in_range (i : Z) :
  0 <= i < len names ->
  exists n, names !! Z.to_nat i = Some n /\ Filter_String names i = Ret n.
Proof.
  intros Hi. unfold Filter_String, index, len in *.
  destruct (lookup_lt_is_Some_2 names (Z.to_nat i)) as [n Hn]; [lia|].
  exists n. split; [exact Hn|].
  replace (i <? 0) with false by lia.
  replace (i >=? Z.of_nat (List.length names)) with false by lia.
  simpl. now rewrite Hn.
Qed.

Lemma Filter_String_out_of_range (i : Z) :
  ~ (0 <= i < len names) -> Filter_String names i = Ret "impossible".
Proof.
  intros Hi. unfold Filter_String.
  destruct (i <? 0) eqn:H0; [reflexivity|].
  destruct (i >=? len names) eqn:H1; [reflexivity|]. lia.
Qed.

Lemma Filter_String_total (i : Z) : exists s, Filter_String names i = Ret s.
Proof.
  destruct (decide (0 <= i < len names)) as [Hi|Hi].
  - destruct (Filter_String_in_range i Hi) as (n & _ & H). now exists n.
  - exists "impossible". now apply Filter_String_out_of_range.
Qed.

(** Where no name is declared twice, rendering then resolving a valid
    identifier gives it back. *)
Lemma round_trip_NoDup (i : Z) :
  NoDup names -> 0 <= i < len names ->
  exists n, Filter_String names i = Ret n /\
            FilterFromName names n = (i, nil_error).
Proof.
  intros Hnd Hi.
  destruct (Filter_String_in_range i Hi) as (n & Hn & Hs).
  exists n. split; [exact Hs|].
  assert (Hin : n ∈ names) by (apply list_elem_of_lookup; eauto).
  destruct (range_first_match n names 0 Hin) as (k & Hk & _ & Hres).
  unfold FilterFromName. rewrite Hres.
  assert (k = Z.to_nat i) by (eapply NoDup_lookup; eauto).
  f_equal. lia.
Qed.

End NamesFacts.

Lemma FilterPluginNames_NoDup : NoDup FilterPluginNames.
Proof. apply (bool_decide_unpack _). vm_compute. exact I. Qed.

Lemma impossible_not_a_name : "impossible" ∉ FilterPluginNames.
Proof. apply (bool_decide_unpack _). vm_compute. exact I. Qed.

(** ** The registry *)

Section RegistryFacts.
Context {Impl : Type}.
Implicit Types (s : state Impl) (p : FilterPlugin Impl) (id : Filter).
Implicit Types (o : gmap Filter (FilterPlugin Impl)).
Implicit Types (calls : list (Filter * FilterPlugin Impl)).

Lemma bind_Ret {A B} (c : M A) (k : A -> M B) s a s' :
  c s = Ret (a, s') -> (c ≫= k) s = k a s'.
Proof. intros H. unfold mbind, M_bind. now rewrite H. Qed.

Lemma init_boot :
  exists s, init boot = Ret (tt, s) /\ table s = Some ∅.
Proof.
  eexists. split; [reflexivity|].
  unfold table. simpl. apply lookup_insert_eq.
Qed.

Lemma Register_table s o id p :
  table s = Some o ->
  exists s', Filters_Register id p s = Ret (tt, s') /\
             table s' = Some (<[id := p]> o).
Proof.
  unfold table, Filters_Register, FiltersList_Register, map_assign.
  destruct (filters (Filters s)) as [l|] eqn:Hl; [|discriminate].
  intros ->. eexists. split; [reflexivity|].
  simpl. rewrite Hl. apply lookup_insert_eq.
Qed.

Lemma Register_exact s l o id p :
  filters (Filters s) = Some l -> heap s !! l = Some o ->
  Filters_Register id p s
  = Ret (tt, mkState (<[l := <[id := p]> o]> (heap s)) (Filters s)).
Proof.
  intros Hl Ho.
  unfold Filters_Register, FiltersList_Register, map_assign.
  now rewrite Hl, Ho.
Qed.

(** A registry whose map was never made: reading gives nil, writing
    panics. The registry of the process is not of that kind, see
    [reachable_table]. *)
Lemma zero_FiltersList s id p :
  FiltersList_Get (mkFiltersList None) id s = Ret (nil_plugin, s) /\
  FiltersList_Register (mkFiltersList None) id p s
  = Panic "assignment to entry in nil map".
Proof. split; reflexivity. Qed.

Lemma Get_table s o id :
  table s = Some o ->
  Filters_Get id s = Ret (default nil_plugin (o !! id), s).
Proof.
  unfold table, Filters_Get, FiltersList_Get, map_index.
  destruct (filters (Filters s)) as [l|]; [|discriminate].
  now intros ->.
Qed.

(** Registrations under other identifiers leave the entry of [id] alone. *)
Lemma registrations_table calls : forall s o,
  table s = Some o ->
  exists s' o', registrations calls s = Ret (tt, s') /\
                table s' = Some o' /\
                forall id, id ∉ calls.*1 -> o' !! id = o !! id.
Proof.
  induction calls as [|[k v] calls IH]; intros s o Hs.
  - exists s, o. split; [reflexivity|]. split; [exact Hs|]. reflexivity.
  - destruct (Register_table s o k v Hs) as (s1 & Hreg & Hs1).
    destruct (IH s1 _ Hs1) as (s' & o' & Hrun & Hs' & Hframe).
    exists s', o'. split; [|split; [exact Hs'|]].
    + simpl. now rewrite (bind_Ret _ _ _ _ _ Hreg).
    + intros id Hid. rewrite fmap_cons in Hid.
      apply not_elem_of_cons in Hid as [Hne Hid]. simpl in Hne.
      rewrite (Hframe id Hid). now apply lookup_insert_ne.
Qed.

Lemma process_table calls :
  exists s o, process calls = Ret (tt, s) /\
              table s = Some o /\
              forall id, id ∉ calls.*1 -> o !! id = None.
Proof.
  destruct init_boot as (s0 & Hinit & Hs0).
  destruct (registrations_table calls s0 ∅ Hs0) as (s & o & Hrun & Hs & Hframe).
  exists s, o. split; [|split; [exact Hs|]].
  - unfold process. now rewrite (bind_Ret _ _ _ _ _ Hinit).
  - intros id Hid. rewrite (Hframe id Hid). apply lookup_empty.
Qed.

(** After [init], the package variable always refers to a map object. *)
Lemma reachable_table s : reachable s -> exists o, table s = Some o.
Proof.
  intros [calls Hp].
  destruct (process_table calls) as (s' & o & Hp' & Hs' & _).
  rewrite Hp in Hp'. injection Hp' as <-. now exists o.
Qed.

End RegistryFacts.

(** * The properties of the specification *)

(** ** Names and identifiers *)

(** C1: for every valid identifier [i], that is [0 <= i < len(FilterPluginNames)],
    [i.String()] returns the canonical name, and [FilterFromName] applied
    to that name returns [i] with a nil error. *)
Theorem FilterFromName_String_round_trip (i : Filter) :
  0 <= i < len FilterPluginNames ->
  exists n, Filter_String FilterPluginNames i = Ret n /\
            FilterFromName FilterPluginNames n = (i, nil_error).
Proof. apply round_trip_NoDup, FilterPluginNames_NoDup. Qed.

Lemma FilterFromName_String_round_trip_witness :
  0 <= SampleFilter < len FilterPluginNames /\
  exists n, Filter_String FilterPluginNames SampleFilter = Ret n /\
            FilterFromName FilterPluginNames n = (SampleFilter, nil_error).
Proof.
  split.
  - unfold SampleFilter, len. simpl. lia.
  - apply (FilterFromName_String_round_trip SampleFilter).
    unfold SampleFilter, len. simpl. lia.
Defined.

(** C3: for every identifier [i] outside [0, len(FilterPluginNames)),
    negative values included, [Filter(i).String()] returns the sentinel
    ["impossible"]; for every [i] inside the range it returns
    [FilterPluginNames[i]]; it never panics; and the sentinel is none of
    the declared names. *)
Theorem Filter_String_spec (names : list string) (i : Filter) :
  (~ (0 <= i < len names) -> Filter_String names i = Ret "impossible") /\
  (0 <= i < len names ->
   exists n, names !! Z.to_nat i = Some n /\ Filter_String names i = Ret n) /\
  (exists n, Filter_String names i = Ret n) /\
  "impossible" ∉ FilterPluginNames.
Proof.
  split; [apply Filter_String_out_of_range|].
  split; [apply Filter_String_in_range|].
  split; [apply Filter_String_total | apply impossible_not_a_name].
Qed.

Lemma Filter_String_spec_witness :
  Filter_String FilterPluginNames (-7) = Ret "impossible" /\
  exists n, FilterPluginNames !! Z.to_nat NopFilter = Some n /\
            Filter_String FilterPluginNames NopFilter = Ret n.
Proof.
  split.
  - apply (Filter_String_spec FilterPluginNames (-7)).
    unfold len. simpl. lia.
  - apply (Filter_String_spec FilterPluginNames NopFilter).
    unfold NopFilter, len. simpl. lia.
Defined.

(** C7: [FilterFromName] scans the names in index order and compares with
    exact string equality: for every [name] present in the list it returns,
    with a nil error, the smallest index that holds [name] (the earliest
    wins among duplicates); and whenever it returns a nil error, the
    returned index holds exactly [name]. *)
Theorem FilterFromName_first_match (names : list string) (name : string) :
  (name ∈ names ->
   exists k : nat,
     names !! k = Some name /\
     (forall j : nat, (j < k)%nat -> names !! j <> Some name) /\
     FilterFromName names name = (Z.of_nat k, nil_error)) /\
  (forall i, FilterFromName names name = (i, nil_error) ->
             0 <= i /\ names !! Z.to_nat i = Some name).
Proof.
  split.
  - intros Hin.
    destruct (range_first_match name names 0 Hin) as (k & Hk & Hfirst & Hres).
    exists k. now rewrite Z.add_0_l in Hres.
  - intros i H. apply range_match_exact in H.
    now rewrite Z.sub_0_r in H.
Qed.

Lemma FilterFromName_first_match_witness :
  exists k : nat,
    ["nop"; "sample"; "nop"] !! k = Some "nop" /\
    (forall j : nat, (j < k)%nat -> ["nop"; "sample"; "nop"] !! j <> Some "nop") /\
    FilterFromName ["nop"; "sample"; "nop"] "nop" = (Z.of_nat k, nil_error).
Proof.
  apply (FilterFromName_first_match ["nop"; "sample"; "nop"] "nop").
  apply (bool_decide_unpack _). vm_compute. exact I.
Defined.

(** C8: with the declared names [["nop"; "sample"]],
    [FilterFromName("sample")] returns identifier 1 and a nil error,
    [Filter(1).String()] returns ["sample"], [Filter(99).String()] returns
    ["impossible"], and [FilterFromName("bogus")] returns an error whose
    message mentions ["bogus"]. *)
Theorem declared_names_scenario :
  FilterPluginNames = ["nop"; "sample"] /\
  FilterFromName FilterPluginNames "sample" = (1, nil_error) /\
  Filter_String FilterPluginNames 1 = Ret "sample" /\
  Filter_String FilterPluginNames 99 = Ret "impossible" /\
  FilterFromName FilterPluginNames "bogus"
    = (-1, errorString "No filter named bogus") /\
  Contains "No filter named bogus" "bogus" = true.
Proof. repeat split. Qed.

(** C10: when the name is not found, [FilterFromName] returns the
    identifier [-1] together with a non-nil error; [-1] is outside
    [0, len(FilterPluginNames)), and [String] renders it as the sentinel
    ["impossible"], which is none of the declared names. *)
Theorem FilterFromName_failure_renders_impossible
    (names : list string) (name : string) :
  name ∉ names ->
  (exists e, FilterFromName names name = (-1, e) /\ e <> nil_error) /\
  ~ (0 <= -1 < len names) /\
  Filter_String names (FilterFromName names name).1 = Ret "impossible" /\
  "impossible" ∉ FilterPluginNames.
Proof.
  intros Hnot. unfold FilterFromName.
  rewrite (range_not_found name names 0 Hnot).
  split; [eexists; split; [reflexivity | discriminate]|].
  split; [lia|].
  split; [apply Filter_String_out_of_range; simpl; lia|].
  apply impossible_not_a_name.
Qed.

Lemma FilterFromName_failure_renders_impossible_witness :
("NOP" ∉ FilterPluginNames) /\
  Filter_String FilterPluginNames (FilterFromName FilterPluginNames "NOP").1
    = Ret "impossible".
Proof.
  split.
  - apply (bool_decide_unpack _). vm_compute. exact I.
  - apply (FilterFromName_failure_renders_impossible FilterPluginNames "NOP").
    apply (bool_decide_unpack _). vm_compute. exact I.
Defined.

(** ** The registry *)

Section RegistryClaims.
Context {Impl : Type}.
Implicit Types (s : state Impl) (id : Filter).
Implicit Types (p A B : FilterPlugin Impl).
Implicit Types (calls later : list (Filter * FilterPlugin Impl)).

(** C4: on the registry of the process, [Register(id, A)] followed by
    [Register(id, B)] completes without a panic (the method returns no
    error), and [Get(id)] then returns [B]: the later registration replaces
    the earlier one, of which nothing remains (the state is the one that
    [Register(id, B)] alone produces). *)
Theorem Register_twice_last_wins s id A B :
  reachable s ->
  exists s1 s2,
    Filters_Register id A s = Ret (tt, s1) /\
    Filters_Register id B s1 = Ret (tt, s2) /\
    Filters_Get id s2 = Ret (B, s2) /\
    Filters_Register id B s = Ret (tt, s2).
Proof.
  intros Hs. destruct (reachable_table s Hs) as [o Ho].
  unfold table in Ho.
  destruct (filters (Filters s)) as [l|] eqn:Hl; [|discriminate].
  pose proof (Register_exact s l o id A Hl Ho) as H1.
  pose proof (Register_exact s l o id B Hl Ho) as HB.
  set (s1 := mkState (<[l := <[id := A]> o]> (heap s)) (Filters s)) in *.
  assert (Ho1 : heap s1 !! l = Some (<[id := A]> o))
    by apply lookup_insert_eq.
  pose proof (Register_exact s1 l _ id B Hl Ho1) as H2.
  simpl in H2. rewrite !insert_insert_eq in H2.
  exists s1, (mkState (<[l := <[id := B]> o]> (heap s)) (Filters s)).
  split; [exact H1|]. split; [exact H2|]. split; [|exact HB].
  erewrite Get_table.
  - now rewrite lookup_insert_eq.
  - unfold table. simpl. rewrite Hl. apply lookup_insert_eq.
Qed.

(** C5: when no [Register(id, _)] was ever called on the registry of the
    process, [Get(id)] returns the nil implementation and does not
    panic. *)
Theorem Get_never_registered calls id :
  id ∉ calls.*1 ->
  exists s, process calls = Ret (tt, s) /\
            Filters_Get id s = Ret (nil_plugin, s).
Proof.
  intros Hid. destruct (process_table calls) as (s & o & Hp & Ho & Hnone).
  exists s. split; [exact Hp|].
  rewrite (Get_table s o id Ho). now rewrite (Hnone id Hid).
Qed.

(** C6: after [Register(id, p)] on the registry of the process, and any
    later registrations under other identifiers, [Get(id)] returns [p]. *)
Theorem Get_after_Register s id p later :
  reachable s ->
  id ∉ later.*1 ->
  exists s1 s2,
    Filters_Register id p s = Ret (tt, s1) /\
    registrations later s1 = Ret (tt, s2) /\
    Filters_Get id s2 = Ret (p, s2).
Proof.
  intros Hs Hid. destruct (reachable_table s Hs) as [o Ho].
  destruct (Register_table s o id p Ho) as (s1 & H1 & Ho1).
  destruct (registrations_table later s1 _ Ho1) as (s2 & o2 & H2 & Ho2 & Hframe).
  exists s1, s2. split; [exact H1|]. split; [exact H2|].
  rewrite (Get_table s2 o2 id Ho2), (Hframe id Hid).
  now rewrite lookup_insert_eq.
Qed.

(** C9: [Register(id, p)] changes the entry of [id] only: for every other
    identifier [id'], [Get(id')] returns the same implementation after the
    registration as before it. *)
Theorem Register_frame s id id' p :
  reachable s ->
  id' <> id ->
  exists s' q,
    Filters_Register id p s = Ret (tt, s') /\
    Filters_Get id' s = Ret (q, s) /\
    Filters_Get id' s' = Ret (q, s').
Proof.
  intros Hs Hne. destruct (reachable_table s Hs) as [o Ho].
  destruct (Register_table s o id p Ho) as (s' & H1 & Ho').
  exists s', (default nil_plugin (o !! id')).
  split; [exact H1|]. split; [now apply Get_table|].
  rewrite (Get_table s' _ id' Ho'). now rewrite lookup_insert_ne.
Qed.

(** C2: for every name [n] that is not in the list of names,
    [FilterFromName(n)] returns a non-nil error whose message contains [n];
    no other operation fails: [String] always returns a string, and on the
    registry of the process [Register] and [Get] always complete. *)
Theorem FilterFromName_only_failure :
  (forall (names : list string) (n : string),
     n ∉ names ->
     exists msg, FilterFromName names n = (-1, errorString msg) /\
                 Contains msg n = true) /\
  (forall (names : list string) (i : Filter),
     exists n, Filter_String names i = Ret n) /\
  (forall s id p,
     reachable s -> exists s', Filters_Register id p s = Ret (tt, s')) /\
  (forall s id,
     reachable s -> exists p, Filters_Get id s = Ret (p, s)).
Proof.
  split; [|split; [|split]].
  - intros names n Hnot. unfold FilterFromName.
    rewrite (range_not_found n names 0 Hnot).
    destruct (Errorf_carries_name n) as (msg & Hmsg & Hc).
    exists msg. rewrite Hmsg. split; [reflexivity | exact Hc].
  - apply Filter_String_total.
  - intros s id p Hs. destruct (reachable_table s Hs) as [o Ho].
    destruct (Register_table s o id p Ho) as (s' & H & _). now exists s'.
  - intros s id Hs. destruct (reachable_table s Hs) as [o Ho].
    eexists. exact (Get_table s o id Ho).
Qed.

End RegistryClaims.

Lemma Register_twice_last_wins_witness :
  exists s1 s2,
    Filters_Register SampleFilter (plugin "first") started = Ret (tt, s1) /\
    Filters_Register SampleFilter (plugin "second") s1 = Ret (tt, s2) /\
    Filters_Get SampleFilter s2 = Ret (plugin "second", s2) /\
    Filters_Register SampleFilter (plugin "second") started = Ret (tt, s2).
Proof.
  apply (Register_twice_last_wins started SampleFilter
           (plugin "first") (plugin "second")).
  exists []. reflexivity.
Defined.

Lemma Get_never_registered_witness :
  exists s, process [(NopFilter, plugin "nop")] = Ret (tt, s) /\
            Filters_Get SampleFilter s = Ret (nil_plugin, s).
Proof.
  apply (Get_never_registered [(NopFilter, plugin "nop")] SampleFilter).
  apply (bool_decide_unpack _). vm_compute. exact I.
Defined.

Lemma Get_after_Register_witness :
  exists s1 s2,
    Filters_Register SampleFilter (plugin "sample") started = Ret (tt, s1) /\
    registrations [(NopFilter, plugin "nop")] s1 = Ret (tt, s2) /\
    Filters_Get SampleFilter s2 = Ret (plugin "sample", s2).
Proof.
  apply (Get_after_Register started SampleFilter (plugin "sample")
           [(NopFilter, plugin "nop")]).
  - exists []. reflexivity.
  - apply (bool_decide_unpack _). vm_compute. exact I.
Defined.

Lemma Register_frame_witness :
  reachable nop_registered /\
  NopFilter <> SampleFilter /\
  exists s',
    Filters_Register SampleFilter (plugin "sample") nop_registered
    = Ret (tt, s') /\
    Filters_Get NopFilter nop_registered
    = Ret (plugin "nop", nop_registered) /\
    Filters_Get NopFilter s' = Ret (plugin "nop", s').
Proof.
  assert (Hreach : reachable nop_registered)
    by (exists [(NopFilter, plugin "nop")]; reflexivity).
  assert (Hne : NopFilter <> SampleFilter)
    by (unfold NopFilter, SampleFilter; lia).
  split; [exact Hreach|]. split; [exact Hne|].
  destruct (Register_frame nop_registered SampleFilter NopFilter
              (plugin "sample") Hreach Hne) as (s' & q & Hreg & Hbefore & Hafter).
  assert (Hq : Filters_Get NopFilter nop_registered
               = Ret (plugin "nop", nop_registered)) by reflexivity.
  rewrite Hq in Hbefore. injection Hbefore as <-.
  exists s'. split; [exact Hreg|]. split; [exact Hq | exact Hafter].
Defined.

Lemma FilterFromName_only_failure_witness :
  (exists msg, FilterFromName FilterPluginNames "bogus" = (-1, errorString msg) /\
               Contains msg "bogus" = true) /\
  (exists s', Filters_Register NopFilter (plugin "nop") started = Ret (tt, s')) /\
  (exists p, Filters_Get NopFilter started = Ret (p, started)).
Proof.
  destruct (FilterFromName_only_failure (Impl:=string)) as (Hname & _ & Hreg & Hget).
  split; [|split].
  - apply (Hname FilterPluginNames "bogus").
    apply (bool_decide_unpack _). vm_compute. exact I.
  - apply (Hreg started NopFilter (plugin "nop")). exists []. reflexivity.
  - apply (Hget started NopFilter). exists []. reflexivity.
Defined.

(** * Further properties of the code *)

(** ** Names and identifiers *)

(** X1: [FilterFromName] decides membership in the table of names: the
    error is nil exactly when the name is in the table, the identifier is
    then a valid one, and it is [-1] exactly when the name is not there. *)
Theorem FilterFromName_decides_membership (names : list string) (name : string) :
  (name ∈ names <-> (FilterFromName names name).2 = nil_error) /\
  (name ∈ names <-> 0 <= (FilterFromName names name).1 < len names) /\
  (name ∉ names <-> (FilterFromName names name).1 = -1).
Proof.
  unfold FilterFromName.
  destruct (decide (name ∈ names)) as [Hin|Hnot].
  - destruct (range_first_match name names 0 Hin) as (k & Hk & _ & Hres).
    rewrite Hres. simpl. apply lookup_lt_Some in Hk. unfold len.
    split; [tauto|]. split; [split; [lia | tauto]|].
    split; [contradiction | lia].
  - rewrite (range_not_found name names 0 Hnot). simpl.
    split; [split; [contradiction | discriminate]|].
    split; [split; [contradiction | lia] | tauto].
Qed.

Lemma FilterFromName_decides_membership_witness :
  (FilterFromName FilterPluginNames "sample").2 = nil_error /\
  (FilterFromName FilterPluginNames "Sample").1 = -1.
Proof.
  split.
  - apply (FilterFromName_decides_membership FilterPluginNames "sample").
    apply (bool_decide_unpack _). vm_compute. exact I.
  - apply (FilterFromName_decides_membership FilterPluginNames "Sample").
    apply (bool_decide_unpack _). vm_compute. exact I.
Defined.

(** X2: for every table, duplicates or not: when [FilterFromName(name)]
    returns an identifier with a nil error, [String] of that identifier is
    [name] again. *)
Theorem String_FilterFromName_round_trip
    (names : list string) (name : string) (i : Filter) :
  FilterFromName names name = (i, nil_error) ->
  Filter_String names i = Ret name.
Proof.
  intros H. apply range_match_exact in H as [Hle Hk].
  rewrite Z.sub_0_r in Hk.
  pose proof (lookup_lt_Some _ _ _ Hk) as Hlt.
  destruct (Filter_String_in_range names i) as (n & Hn & Hs).
  - unfold len. lia.
  - congruence.
Qed.

Lemma String_FilterFromName_round_trip_witness :
  FilterFromName ["nop"; "sample"; "nop"] "nop" = (0, nil_error) /\
  Filter_String ["nop"; "sample"; "nop"] 0 = Ret "nop".
Proof.
  split; [reflexivity|].
  apply (String_FilterFromName_round_trip ["nop"; "sample"; "nop"] "nop" 0).
  reflexivity.
Defined.



(** X4: where the sentinel is not itself a name of the table, rendering an
    identifier outside the valid range and resolving the result fails:
    [String] gives ["impossible"] and [FilterFromName] of it gives [-1]
    and a non-nil error. *)
Theorem sentinel_never_resolves (names : list string) (i : Filter) :
  "impossible" ∉ names ->
  ~ (0 <= i < len names) ->
  exists n e, Filter_String names i = Ret n /\
              FilterFromName names n = (-1, e) /\ e <> nil_error.
Proof.
  intros Hs Hi. exists "impossible". eexists.
  split; [now apply Filter_String_out_of_range|].
  unfold FilterFromName. rewrite (range_not_found _ names 0 Hs).
  split; [reflexivity | discriminate].
Qed.

Lemma sentinel_never_resolves_witness :
  exists n e, Filter_String FilterPluginNames 2 = Ret n /\
              FilterFromName FilterPluginNames n = (-1, e) /\ e <> nil_error.
Proof.
  apply (sentinel_never_resolves FilterPluginNames 2).
  - apply (bool_decide_unpack _). vm_compute. exact I.
  - unfold len. simpl. lia.
Defined.

(** X5: the error of a failed resolution is exactly
    ["No filter named "] followed by the name, whatever bytes the name
    holds, so two unknown names never give the same error. *)
Theorem FilterFromName_error_message (names : list string) (n1 n2 : string) :
  n1 ∉ names -> n2 ∉ names ->
  FilterFromName names n1 = (-1, errorString ("No filter named " +:+ n1)) /\
  ((FilterFromName names n1).2 = (FilterFromName names n2).2 -> n1 = n2).
Proof.
  intros H1 H2. unfold FilterFromName.
  rewrite (range_not_found n1 names 0 H1), (range_not_found n2 names 0 H2).
  unfold Errorf. rewrite !Sprintf_No_filter_named. split; [reflexivity|].
  simpl. intros [= H]. exact H.
Qed.

Lemma FilterFromName_error_message_witness :
  FilterFromName FilterPluginNames "%s"
  = (-1, errorString ("No filter named " +:+ "%s")).
Proof.
  apply (FilterFromName_error_message FilterPluginNames "%s" "%s");
    apply (bool_decide_unpack _); vm_compute; exact I.
Defined.

(** X6: the constants of the enumeration and the table of names agree: an
    identifier is valid exactly when it is [NopFilter] or [SampleFilter],
    and each constant renders to, and is resolved from, its own name. *)
Theorem constants_match_names (i : Filter) :
  (0 <= i < len FilterPluginNames <-> i = NopFilter \/ i = SampleFilter) /\
  Filter_String FilterPluginNames NopFilter = Ret "nop" /\
  Filter_String FilterPluginNames SampleFilter = Ret "sample" /\
  FilterFromName FilterPluginNames "nop" = (NopFilter, nil_error) /\
  FilterFromName FilterPluginNames "sample" = (SampleFilter, nil_error).
Proof.
  split; [|repeat split].
  unfold len, NopFilter, SampleFilter. simpl. lia.
Qed.

Lemma constants_match_names_witness :
  0 <= SampleFilter < len FilterPluginNames.
Proof.
  apply (constants_match_names SampleFilter). right. reflexivity.
Defined.

Lemma range_app_stable (name : string) (rest more : list string) (i : Z) :
  name ∈ rest ->
  FilterFromName_range name i (rest ++ more) = FilterFromName_range name i rest.
Proof.
  revert i. induction rest as [|p rest IH]; intros i Hin.
  - now apply elem_of_nil in Hin.
  - simpl. destruct (String.eqb_spec name p) as [->|Hne]; [reflexivity|].
    apply elem_of_cons in Hin as [->|Hin]; [contradiction|].
    now apply IH.
Qed.

(** X11: names added at the end of the table change nothing for what was
    there: every name of the old table resolves to the same identifier,
    and every identifier valid in the old table renders to the same
    name. *)
Theorem names_append_stable (names more : list string) :
  (forall name, name ∈ names ->
     FilterFromName (names ++ more) name = FilterFromName names name) /\
  (forall i : Filter, 0 <= i < len names ->
     Filter_String (names ++ more) i = Filter_String names i).
Proof.
  split.
  - intros name Hin. now apply range_app_stable.
  - intros i Hi.
    destruct (Filter_String_in_range names i Hi) as (n & Hn & Hs).
    destruct (Filter_String_in_range (names ++ more) i) as (n' & Hn' & Hs').
    + unfold len in *. rewrite length_app. lia.
    + rewrite lookup_app_l in Hn' by (unfold len in Hi; lia). congruence.
Qed.

Lemma names_append_stable_witness :
  FilterFromName (FilterPluginNames ++ ["sample"; "drop"]) "sample"
  = FilterFromName FilterPluginNames "sample" /\
  Filter_String (FilterPluginNames ++ ["sample"; "drop"]) SampleFilter
  = Filter_String FilterPluginNames SampleFilter.
Proof.
  split.
  - apply (names_append_stable FilterPluginNames ["sample"; "drop"]).
    apply (bool_decide_unpack _). vm_compute. exact I.
  - apply (names_append_stable FilterPluginNames ["sample"; "drop"]).
    unfold SampleFilter, len. simpl. lia.
Defined.

(** ** The registry *)

Section RegistryMore.
Context {Impl : Type}.
Implicit Types (s : state Impl) (id : Filter) (r : FiltersList).
Implicit Types (p q : FilterPlugin Impl).
Implicit Types (o : gmap Filter (FilterPlugin Impl)).
Implicit Types (calls later : list (Filter * FilterPlugin Impl)).

Lemma registrations_last calls : forall s o,
  table s = Some o ->
  exists s' o', registrations calls s = Ret (tt, s') /\
                table s' = Some o' /\
                forall id, o' !! id = match last_registration calls id with
                                      | Some q => Some q
                                      | None => o !! id
                                      end.
Proof.
  induction calls as [|[k v] calls IH]; intros s o Hs.
  - exists s, o. split; [reflexivity|]. split; [exact Hs|]. reflexivity.
  - destruct (Register_table s o k v Hs) as (s1 & Hreg & Hs1).
    destruct (IH s1 _ Hs1) as (s' & o' & Hrun & Hs' & Hlast).
    exists s', o'. split; [|split; [exact Hs'|]].
    + simpl. now rewrite (bind_Ret _ _ _ _ _ Hreg).
    + intros id. rewrite (Hlast id). simpl.
      destruct (last_registration calls id); [reflexivity|].
      destruct (decide (k = id)) as [->|Hne].
      * apply lookup_insert_eq.
      * now apply lookup_insert_ne.
Qed.

(** X7: [init] followed by any history of registrations never panics;
    in the state reached, the entry of [id] in the registry map is the
    implementation of the last registration under [id] (no entry when
    there is none), and [Get(id)] returns that implementation, or nil when
    there is none. *)
Theorem Get_last_registration calls id :
  exists s o,
    process calls = Ret (tt, s) /\
    table s = Some o /\
    o !! id = last_registration calls id /\
    Filters_Get id s
    = Ret (default nil_plugin (last_registration calls id), s).
Proof.
  destruct (@init_boot Impl) as (s0 & Hinit & Hs0).
  destruct (registrations_last calls s0 ∅ Hs0) as (s & o & Hrun & Hs & Hlast).
  assert (Ho : o !! id = last_registration calls id).
  { rewrite (Hlast id). destruct (last_registration calls id); [reflexivity|].
    apply lookup_empty. }
  exists s, o. split; [|split; [exact Hs|split; [exact Ho|]]].
  - unfold process. now rewrite (bind_Ret _ _ _ _ _ Hinit).
  - rewrite (Get_table s o id Hs). now rewrite Ho.
Qed.

(** X8: two registrations under different identifiers commute: either
    order completes and leads to the same state. *)
Theorem Register_commute s id1 id2 p q :
  reachable s ->
  id1 <> id2 ->
  exists s',
    (Filters_Register id1 p;; Filters_Register id2 q) s = Ret (tt, s') /\
    (Filters_Register id2 q;; Filters_Register id1 p) s = Ret (tt, s').
Proof.
  intros Hs Hne. destruct (reachable_table s Hs) as [o Ho].
  unfold table in Ho.
  destruct (filters (Filters s)) as [l|] eqn:Hl; [|discriminate].
  assert (Hstep : forall ida a idb b,
    (Filters_Register ida a;; Filters_Register idb b) s
    = Ret (tt, mkState (<[l := <[idb := b]> (<[ida := a]> o)]> (heap s))
                       (Filters s))).
  { intros ida a idb b.
    rewrite (bind_Ret _ _ _ _ _ (Register_exact s l o ida a Hl Ho)).
    erewrite Register_exact; [|exact Hl|apply lookup_insert_eq].
    simpl. now rewrite insert_insert_eq. }
  eexists. split; [apply Hstep|].
  rewrite Hstep. now rewrite (insert_insert_ne o id1 id2) by exact Hne.
Qed.

Lemma registrations_keep later : forall s l o,
  filters (Filters s) = Some l -> heap s !! l = Some o ->
  exists s', registrations later s = Ret (tt, s') /\
             Filters s' = Filters s /\ dom (heap s') = dom (heap s).
Proof.
  induction later as [|[k v] later IH]; intros s l o Hl Ho.
  - exists s. repeat split.
  - pose proof (Register_exact s l o k v Hl Ho) as Hreg.
    set (s1 := mkState (<[l := <[k := v]> o]> (heap s)) (Filters s)) in *.
    destruct (IH s1 l (<[k := v]> o) Hl) as (s' & Hrun & HF & Hd).
    { apply lookup_insert_eq. }
    exists s'. split; [|split].
    + simpl. now rewrite (bind_Ret _ _ _ _ _ Hreg).
    + exact HF.
    + rewrite Hd. simpl. rewrite dom_insert_L.
      apply elem_of_dom_2 in Ho.
      now apply subseteq_union_1_L, singleton_subseteq_l.
Qed.

(** X9: registrations never reassign the package variable [Filters] and
    never make a map object; so a copy of the registry struct taken at any
    time stays an alias of the registry: [Get] through the old copy returns
    what [Get] through [Filters] returns after any later registrations. *)
Theorem registry_copy_stays_alias s later :
  reachable s ->
  exists s',
    registrations later s = Ret (tt, s') /\
    Filters s' = Filters s /\
    dom (heap s') = dom (heap s) /\
    forall id, FiltersList_Get (Filters s) id s' = Filters_Get id s'.
Proof.
  intros Hs. destruct (reachable_table s Hs) as [o Ho].
  unfold table in Ho.
  destruct (filters (Filters s)) as [l|] eqn:Hl; [|discriminate].
  destruct (registrations_keep later s l o Hl Ho) as (s' & Hrun & HF & Hd).
  exists s'. split; [exact Hrun|]. split; [exact HF|]. split; [exact Hd|].
  intros id. unfold Filters_Get. now rewrite HF.
Qed.


End RegistryMore.

Lemma Register_commute_witness :
  exists s',
    (Filters_Register NopFilter (plugin "nop");;
     Filters_Register SampleFilter (plugin "sample")) started = Ret (tt, s') /\
    (Filters_Register SampleFilter (plugin "sample");;
     Filters_Register NopFilter (plugin "nop")) started = Ret (tt, s').
Proof.
  apply (Register_commute started NopFilter SampleFilter
           (plugin "nop") (plugin "sample")).
  - exists []. reflexivity.
  - unfold NopFilter, SampleFilter. lia.
Defined.

Lemma registry_copy_stays_alias_witness :
  exists s',
    registrations [(SampleFilter, plugin "sample")] started = Ret (tt, s') /\
    Filters s' = Filters started /\
    dom (heap s') = dom (heap started) /\
    forall id, FiltersList_Get (Filters started) id s' = Filters_Get id s'.
Proof.
  apply (registry_copy_stays_alias started [(SampleFilter, plugin "sample")]).
  exists []. reflexivity.
Defined.

